(* ===================================================================== *)
(* Burrows-Wheeler transform of bwt_python.py: forward transform by       *)
(* sorting all rotations, inverse by iterated column reconstruction.      *)
(* ===================================================================== *)
(* A Python str is modelled as the sequence of its code points (nat),     *)
(* ordered by Python's lexicographic comparison of strings.  A Python int *)
(* is a Z.  Code that can raise returns a [result]: subscripts raise      *)
(* IndexError and list.index raises ValueError, and the two functions are *)
(* written in the error monad statement by statement.                     *)
(*                                                                        *)
(* Contents: the embedding of bwt_transform and bwt_inverse; the pure     *)
(* functions their loops compute; the reference definition of the sorted  *)
(* rotation table in the specification's words; lemmas on the order, on   *)
(* sorting, on subscripts and on rotations; the invariant of the inverse  *)
(* (after k passes the table holds the first k columns of the sorted      *)
(* rotations); the properties of the specification, C1 to C10; and        *)
(* further properties of bwt_transform, bwt_inverse and main, X1 to X13. *)

From Stdlib Require Import ZArith Lia Ascii String DecimalString.
From mathcomp Require Import boot.
Set Implicit Arguments.
Unset Strict Implicit.
Unset Printing Implicit Defensive.

(* --------------------------------------------------------------------- *)
(* Exceptions                                                             *)
(* --------------------------------------------------------------------- *)

Inductive exn : Type := IndexError | ValueError.

Inductive result (A : Type) : Type :=
| Ok of A
| Raise of exn.

Arguments Ok {A} _.
Arguments Raise {A} _.

Definition bind {A B : Type} (m : result A) (k : A -> result B) : result B :=
  match m with
  | Ok a => k a
  | Raise e => Raise e
  end.

Notation "x <- m ;; k" := (bind m (fun x => k))
  (at level 61, m at next level, right associativity).

(* a generator or comprehension whose element expression can raise *)
Fixpoint mapM {A B : Type} (f : A -> result B) (l : seq A) : result (seq B) :=
  match l with
  | [::] => Ok [::]
  | a :: l' => b <- f a ;; bs <- mapM f l' ;; Ok (b :: bs)
  end.

(* [for i in js: st = body(i, st)] *)
Fixpoint for_each {S : Type} (js : seq nat) (body : nat -> S -> result S)
    (st : S) : result S :=
  match js with
  | [::] => Ok st
  | j :: js' => st' <- body j st ;; for_each js' body st'
  end.

(* range(n) *)
Definition range (n : nat) : seq nat := iota 0 n.

(* --------------------------------------------------------------------- *)
(* Strings                                                                *)
(* --------------------------------------------------------------------- *)

Definition sym : Type := nat.
Definition str : Type := seq sym.

(* the end-of-string marker '$' *)
Definition dollar : sym := 36.

(* a literal *)
Definition lit (s : string) : str :=
  [seq nat_of_ascii c | c <- list_ascii_of_string s].

(* a < b on str *)
Fixpoint str_lt (a b : str) : bool :=
  match a, b with
  | _, [::] => false
  | [::], _ :: _ => true
  | x :: a', y :: b' => (x < y) || ((x == y) && str_lt a' b')
  end.

(* a <= b on str *)
Fixpoint str_le (a b : str) : bool :=
  match a, b with
  | [::], _ => true
  | _ :: _, [::] => false
  | x :: a', y :: b' => (x < y) || ((x == y) && str_le a' b')
  end.

(* sorted(l) and l.sort() on a list of str: the stable sort by <, which    *)
(* places a before b when b < a fails, that is when a <= b (str_leNgt)     *)
Definition sorted_py (l : seq str) : seq str := sort str_le l.

(* --------------------------------------------------------------------- *)
(* Subscripts                                                             *)
(* --------------------------------------------------------------------- *)

Definition len {A : Type} (l : seq A) : Z := Z.of_nat (size l).

(* the position a subscript i denotes: i itself, or len + i when i < 0 *)
Definition norm_index {A : Type} (l : seq A) (i : Z) : Z :=
  if (i <? 0)%Z then (len l + i)%Z else i.

Definition in_range {A : Type} (l : seq A) (j : Z) : bool :=
  ((0 <=? j)%Z && (j <? len l)%Z)%bool.

(* l[i] *)
Definition getitem {A : Type} (d : A) (l : seq A) (i : Z) : result A :=
  let j := norm_index l i in
  if in_range l j then Ok (nth d l (Z.to_nat j)) else Raise IndexError.

(* l[i] = v *)
Definition setitem {A : Type} (l : seq A) (i : Z) (v : A) : result (seq A) :=
  let j := norm_index l i in
  if in_range l j then Ok (set_nth v l (Z.to_nat j) v) else Raise IndexError.

(* l.index(x) *)
Definition index_py (x : str) (l : seq str) : result Z :=
  if x \in l then Ok (Z.of_nat (index x l)) else Raise ValueError.

(* --------------------------------------------------------------------- *)
(* bwt_transform                                                          *)
(* --------------------------------------------------------------------- *)

(* the string the transform works on: s after the marker was added *)
Definition effective (s : str) : str :=
  if dollar \notin s then s ++ [:: dollar] else s.

(* [s[i:] + s[:i] for i in range(len(s))] *)
Definition rotations (s : str) : seq str :=
  [seq drop i s ++ take i s | i <- range (size s)].

(* rotation[-1] is a string of one symbol, and join concatenates these:
   transformed is the list of the last symbols *)
Definition bwt_transform (s0 : str) : result (str * Z) :=
  let s := effective s0 in
  let rotations := rotations s in
  let sorted_rotations := sorted_py rotations in
  index <- index_py s sorted_rotations ;;
  transformed <- mapM (fun rotation => getitem 0 rotation (-1)) sorted_rotations ;;
  Ok (transformed, index).

(* --------------------------------------------------------------------- *)
(* bwt_inverse                                                            *)
(* --------------------------------------------------------------------- *)

(* table[j] = transformed[j] + table[j]: the one symbol transformed[j] is
   put in front of row j *)
Definition column_body (transformed : str) (j : nat) (table : seq str) :
    result (seq str) :=
  c <- getitem 0 transformed (Z.of_nat j) ;;
  row <- getitem [::] table (Z.of_nat j) ;;
  setitem table (Z.of_nat j) (c :: row).

(* for j in range(len(transformed)): table[j] = transformed[j] + table[j] *)
Definition insert_column (transformed : str) (table : seq str) :
    result (seq str) :=
  for_each (range (size transformed)) (column_body transformed) table.

(* one pass of the outer loop: insert the column, then table.sort() *)
Definition outer_body (transformed : str) (i : nat) (table : seq str) :
    result (seq str) :=
  table' <- insert_column transformed table ;;
  Ok (sorted_py table').

(* table = [''] * len(transformed), then the outer loop *)
Definition final_table (transformed : str) : result (seq str) :=
  for_each (range (size transformed)) (outer_body transformed)
    (nseq (size transformed) [::]).

Definition bwt_inverse (transformed : str) (index : Z) : result str :=
  table <- final_table transformed ;;
  getitem [::] table index.

(* --------------------------------------------------------------------- *)
(* What the loops compute, as pure functions                              *)
(* --------------------------------------------------------------------- *)

(* the sorted table of the forward pass *)
Definition sorted_rotations (s : str) : seq str := sorted_py (rotations s).

(* its last column *)
Definition last_column (s : str) : str :=
  [seq last 0 r | r <- sorted_rotations s].

(* the rows of table, each with its symbol of t in front *)
Definition prepend (t : str) (table : seq str) : seq str :=
  [seq p.1 :: p.2 | p <- zip t table].

(* one pass of the outer loop *)
Definition round (t : str) (table : seq str) : seq str :=
  sorted_py (prepend t table).

(* the table after k passes *)
Definition table_after (t : str) (k : nat) : seq str :=
  iter k (round t) (nseq (size t) [::]).

(* --------------------------------------------------------------------- *)
(* The reference definition of the transform, in the words of the         *)
(* specification: cyclic shifts by offset, and a sorted table of them     *)
(* --------------------------------------------------------------------- *)

(* the cyclic shift of s by offset i: symbol k is symbol (i + k) mod n of s *)
Definition spec_rotation (i : nat) (s : str) : str :=
  mkseq (fun k => nth 0 s ((i + k) %% size s)) (size s).

(* m lists the n cyclic shifts of s, one per offset, in lexicographic order *)
Definition spec_sorted_rotation_table (s : str) (m : seq str) : bool :=
  perm_eq m [seq spec_rotation i s | i <- iota 0 (size s)] && sorted str_le m.

(* --------------------------------------------------------------------- *)
(* main                                                                   *)
(* --------------------------------------------------------------------- *)

(* standard output: the texts given to print, oldest first; print ends
   each of them with a newline *)
Definition stdout : Type := seq str.

(* a statement that may print and may raise; what was printed before an
   exception stays printed *)
Definition io (A : Type) : Type := stdout -> stdout * result A.

Definition print (text : str) : io unit :=
  fun out => (rcons out text, Ok tt).

(* a call of a function that does not print *)
Definition call {A : Type} (m : result A) : io A := fun out => (out, m).

Definition bind_io {A B : Type} (m : io A) (k : A -> io B) : io B :=
  fun out =>
    let (out', r) := m out in
    match r with
    | Ok a => k a out'
    | Raise e => (out', Raise e)
    end.

Notation "x <-- m ;;; k" := (bind_io m (fun x => k))
  (at level 61, m at next level, right associativity).

(* str(i) for an int i, as an f-string formats it: decimal digits, with a
   minus sign when negative *)
Definition str_of_int (i : Z) : str :=
  lit (NilZero.string_of_int (Z.to_int i)).

(* the newline of the literal that starts with backslash n *)
Definition newline : sym := 10.

Definition main : io unit :=
  let input_str := lit "BANANA$" in
  _ <-- print (lit "Input: " ++ input_str) ;;;
  res <-- call (bwt_transform input_str) ;;;
  let transformed := res.1 in
  let index := res.2 in
  _ <-- print (lit "BWT Transform: " ++ transformed ++ lit " (index: " ++
               str_of_int index ++ lit ")") ;;;
  original <-- call (bwt_inverse transformed index) ;;;
  _ <-- print (lit "BWT Inverse: " ++ original) ;;;
  let input_str := lit "MISSISSIPPI$" in
  _ <-- print (newline :: lit "Input: " ++ input_str) ;;;
  res <-- call (bwt_transform input_str) ;;;
  let transformed := res.1 in
  let index := res.2 in
  _ <-- print (lit "BWT Transform: " ++ transformed ++ lit " (index: " ++
               str_of_int index ++ lit ")") ;;;
  original <-- call (bwt_inverse transformed index) ;;;
  print (lit "BWT Inverse: " ++ original).

(* --------------------------------------------------------------------- *)
(* Arithmetic through lia                                                 *)
(* --------------------------------------------------------------------- *)

(* decide the tests of a subscript, then close the branches by lia *)
Ltac z_tests :=
  repeat match goal with
  | |- context [(?a <? ?b)%Z] => case: (Z.ltb_spec a b) => ?
  | |- context [(?a <=? ?b)%Z] => case: (Z.leb_spec a b) => ?
  end; try lia.

(* goals and hypotheses on nat in ssrnat's boolean form *)
Ltac nat_lia :=
  repeat match goal with
  | H : is_true (leq _ _) |- _ => move/leP: H
  | H : @eq nat _ _ |- _ => move: H
  end;
  try apply/leP; rewrite -?minusE -?plusE; lia.

(* --------------------------------------------------------------------- *)
(* The order on strings                                                   *)
(* --------------------------------------------------------------------- *)

Lemma str_leNgt (a b : str) : str_le a b = ~~ str_lt b a.
Proof.
elim: a b => [|x a IH] [|y b] //=.
rewrite IH negb_or negb_and -leqNgt [y == x]eq_sym.
case: (ltngtP x y) => //=.
Qed.

Lemma str_le_refl : reflexive str_le.
Proof. by elim=> [|x a IH] //=; rewrite ltnn eqxx IH. Qed.

Lemma str_le_total : total str_le.
Proof.
elim=> [|x a IH] [|y b] //=.
by case: (ltngtP x y) => //= _; exact: IH.
Qed.

Lemma str_le_trans : transitive str_le.
Proof.
move=> b a c; elim: a b c => [|x a IH] [|y b] [|z c] //=.
case/orP=> [xy|/andP [/eqP -> ab]].
  case/orP=> [yz|/andP [/eqP <- _]]; last by rewrite xy.
  by rewrite (ltn_trans xy yz).
case/orP=> [->//|/andP [/eqP <- bc]].
by rewrite eqxx (IH _ _ ab bc) orbT.
Qed.

Lemma str_le_anti : antisymmetric str_le.
Proof.
elim=> [|x a IH] [|y b] //=.
case: (ltngtP x y) => //= -> /andP [ab ba].
by rewrite (IH b) ?ab.
Qed.

Lemma str_le_take (k : nat) (a b : str) :
  str_le a b -> str_le (take k a) (take k b).
Proof.
elim: k a b => [|k IH] [|x a] [|y b] //=.
by case/orP=> [->//|/andP [-> ab]]; rewrite (IH _ _ ab) orbT.
Qed.

(* --------------------------------------------------------------------- *)
(* Sorting                                                                *)
(* --------------------------------------------------------------------- *)

Lemma sorted_py_perm (l : seq str) : perm_eq (sorted_py l) l.
Proof. by rewrite /sorted_py perm_sort. Qed.

Lemma sorted_py_sorted (l : seq str) : sorted str_le (sorted_py l).
Proof. exact: (sort_sorted str_le_total). Qed.

Lemma size_sorted_py (l : seq str) : size (sorted_py l) = size l.
Proof. exact: size_sort. Qed.

Lemma mem_sorted_py (l : seq str) : sorted_py l =i l.
Proof. exact: mem_sort. Qed.

(* the order being total and antisymmetric, a list has one sorted
   arrangement: the result does not depend on the sorting method *)
Lemma sorted_py_unique (l m : seq str) :
  perm_eq m l -> sorted str_le m -> m = sorted_py l.
Proof.
move=> pml sm.
apply: (sorted_eq str_le_trans str_le_anti sm (sorted_py_sorted l)).
by rewrite (perm_trans pml) // perm_sym sorted_py_perm.
Qed.

Lemma sorted_py_id (l : seq str) : sorted str_le l -> sorted_py l = l.
Proof. by move=> sl; rewrite -(sorted_py_unique (perm_refl l) sl). Qed.

Lemma sorted_py_eq (l1 l2 : seq str) :
  perm_eq l1 l2 -> sorted_py l1 = sorted_py l2.
Proof.
move=> p12; apply: sorted_py_unique; last exact: sorted_py_sorted.
exact: perm_trans (sorted_py_perm l1) p12.
Qed.

Lemma sorted_take (k : nat) (l : seq str) :
  sorted str_le l -> sorted str_le [seq take k r | r <- l].
Proof.
rewrite sorted_map; apply: sub_sorted => a b; exact: str_le_take.
Qed.

(* --------------------------------------------------------------------- *)
(* Subscripts in range                                                    *)
(* --------------------------------------------------------------------- *)

Section Subscripts.
Variable A : Type.
Implicit Types (l : seq A) (d v : A) (k : nat) (i : Z).

Lemma in_range_nat l k : in_range l (Z.of_nat k) = (k < size l).
Proof. by rewrite /in_range /len; case: ltP => h; z_tests. Qed.

Lemma norm_index_nat l k : norm_index l (Z.of_nat k) = Z.of_nat k.
Proof. by rewrite /norm_index; z_tests. Qed.

Lemma getitem_nat d l k :
  getitem d l (Z.of_nat k) = if k < size l then Ok (nth d l k) else Raise IndexError.
Proof. by rewrite /getitem norm_index_nat in_range_nat Nat2Z.id. Qed.

Lemma setitem_nat l k v :
  setitem l (Z.of_nat k) v =
  if k < size l then Ok (set_nth v l k v) else Raise IndexError.
Proof. by rewrite /setitem norm_index_nat in_range_nat Nat2Z.id. Qed.

(* l[-1] is the last element, and raises on the empty list *)
Lemma getitem_last d l :
  getitem d l (-1) = if l is x :: l' then Ok (last x l') else Raise IndexError.
Proof.
case: l => [|x l'] //.
rewrite /getitem /norm_index /in_range /len [size _]/=; z_tests.
have -> : Z.to_nat (Z.of_nat (size l').+1 + -1) = size l' by lia.
by rewrite /= -[size l']/(size (x :: l')).-1 nth_last.
Qed.

(* a negative subscript i >= -len denotes the position len + i *)
Lemma getitem_neg d l i :
  (- len l <= i < 0)%Z -> getitem d l i = Ok (nth d l (Z.to_nat (len l + i))).
Proof. by move=> hi; rewrite /getitem /norm_index /in_range; z_tests. Qed.

(* outside [-len, len) the subscript raises *)
Lemma getitem_out d l i :
  (i < - len l \/ len l <= i)%Z -> getitem d l i = Raise IndexError.
Proof. by move=> hi; rewrite /getitem /norm_index /in_range; z_tests. Qed.

End Subscripts.

(* --------------------------------------------------------------------- *)
(* Rotations                                                              *)
(* --------------------------------------------------------------------- *)

Lemma rotationsE (s : str) : rotations s = [seq rot i s | i <- iota 0 (size s)].
Proof. by []. Qed.

Lemma size_rotations (s : str) : size (rotations s) = size s.
Proof. by rewrite /rotations /range size_map size_iota. Qed.

Lemma size_rotation (s r : str) : r \in rotations s -> size r = size s.
Proof. by rewrite rotationsE => /mapP [i _ ->]; rewrite size_rot. Qed.

Lemma mem_rotations (s : str) : 0 < size s -> s \in rotations s.
Proof.
move=> s0; rewrite rotationsE; apply/mapP; exists 0; last by rewrite rot0.
by rewrite mem_iota.
Qed.

(* the first column of the rotations spells s *)
Lemma head_rotations (s : str) : [seq head 0 r | r <- rotations s] = s.
Proof.
apply: (@eq_from_nth _ 0) => [|i]; first by rewrite size_map size_rotations.
rewrite size_map size_rotations => lti.
rewrite (nth_map [::]) ?size_rotations // rotationsE.
rewrite (nth_map 0) ?size_iota // nth_iota // add0n.
by rewrite /rot (drop_nth 0 lti).
Qed.

(* rotating every row by one rotates the list of rotations by one *)
Lemma rot_rotations (s : str) :
  [seq rot 1 r | r <- rotations s] = rot 1 (rotations s).
Proof.
rewrite rotationsE -map_rot -map_comp.
case E: (size s) => [|m] //.
have -> : [seq (rot 1 \o rot^~ s) i | i <- iota 0 m.+1] =
           rcons [seq rot i.+1 s | i <- iota 0 m] s.
  rewrite -[in LHS](addn1 m) iotaD map_cat /= add0n cats1 -rotS ?E // -E rot_size.
  congr rcons; apply/eq_in_map => i; rewrite mem_iota add0n /= => lti.
  by rewrite -rotS // E ltnS ltnW.
have -> : iota 0 m.+1 = 0 :: [seq i.+1 | i <- iota 0 m].
  by rewrite /= -[1]addn0 iotaDl; congr (_ :: _); apply: eq_map => i.
by rewrite rot1_cons map_rcons rot0 -map_comp.
Qed.

Lemma perm_rotr_rotations (s : str) :
  perm_eq [seq rotr 1 r | r <- rotations s] (rotations s).
Proof.
have: perm_eq [seq rot 1 r | r <- rotations s] (rotations s).
  by rewrite rot_rotations perm_rot.
by move/(perm_map (rotr 1)); rewrite (mapK (rotK 1)) perm_sym.
Qed.

(* the last column of the rotations is a rearrangement of s *)
Lemma perm_last_rotations (s : str) :
  perm_eq [seq last 0 r | r <- rotations s] s.
Proof.
have -> : [seq last 0 r | r <- rotations s] =
          [seq head 0 r | r <- [seq rotr 1 r | r <- rotations s]].
  rewrite -map_comp; apply/eq_in_map => r /size_rotation.
  by case/lastP: r => [|r z] //= _; rewrite rotr1_rcons last_rcons.
by rewrite -{2}[s]head_rotations; apply/perm_map/perm_rotr_rotations.
Qed.

Lemma rotr1_take (k : nat) (r : str) :
  k < size r -> take k.+1 (rotr 1 r) = last 0 r :: take k r.
Proof.
case/lastP: r => [|r z] //; rewrite size_rcons ltnS => ler.
by rewrite rotr1_rcons last_rcons /= -cats1 takel_cat.
Qed.

(* --------------------------------------------------------------------- *)
(* The forward transform never raises                                     *)
(* --------------------------------------------------------------------- *)

Lemma size_effective (s : str) : 0 < size (effective s).
Proof.
rewrite /effective; case: ifP => [_|]; first by rewrite size_cat addn1.
by case: s.
Qed.

Lemma mem_effective (s : str) : dollar \in effective s.
Proof.
rewrite /effective; case: ifPn => [_|/negbNE //].
by rewrite mem_cat mem_seq1 eqxx orbT.
Qed.

(* the last column of a table without empty rows *)
Lemma mapM_last (l : seq str) :
  [::] \notin l ->
  mapM (fun rotation => getitem 0 rotation (-1)) l = Ok [seq last 0 r | r <- l].
Proof.
elim: l => [|r l IH] //=; rewrite in_cons negb_or => /andP [r0 /IH ->].
by rewrite getitem_last; case: r r0.
Qed.

Lemma size_sorted_rotations (s : str) : size (sorted_rotations s) = size s.
Proof. by rewrite size_sorted_py size_rotations. Qed.

Lemma size_sorted_rotation (s r : str) :
  r \in sorted_rotations s -> size r = size s.
Proof. by rewrite mem_sorted_py; exact: size_rotation. Qed.

Lemma mem_sorted_rotations (s : str) : 0 < size s -> s \in sorted_rotations s.
Proof. by move=> s0; rewrite mem_sorted_py mem_rotations. Qed.

Lemma bwt_transformE (s0 : str) :
  let s := effective s0 in
  bwt_transform s0 =
  Ok (last_column s, Z.of_nat (index s (sorted_rotations s))).
Proof.
rewrite /bwt_transform /index_py /= -/(sorted_rotations _).
rewrite mem_sorted_rotations ?size_effective //= mapM_last //.
apply/negP => /size_sorted_rotation /= e.
by move: (size_effective s0); rewrite -e.
Qed.

(* --------------------------------------------------------------------- *)
(* The loops of the inverse transform never raise                         *)
(* --------------------------------------------------------------------- *)

Lemma set_nth_fill (A : Type) (d v y : A) (l : seq A) (k : nat) :
  k < size l -> set_nth v l k y = set_nth d l k y.
Proof. by elim: l k => [|x l IH] [|k] //= /IH ->. Qed.

(* the inner loop from j = k on, for m steps: rows k .. k + m - 1 receive
   their symbol, the other rows are untouched *)
Lemma insert_column_loop (t : str) (T : seq str) (k m : nat) :
  size T = size t -> k + m <= size t ->
  for_each (iota k m) (column_body t) T =
  Ok (mkseq (fun j => if (k <= j < k + m) then nth 0 t j :: nth [::] T j
                      else nth [::] T j) (size t)).
Proof.
elim: m k T => [|m IH] k T sT le_km /=.
  congr Ok; apply: (@eq_from_nth _ [::]) => [|j]; first by rewrite size_mkseq.
  by rewrite sT => ltj; rewrite nth_mkseq // addn0 leqNgt andNb.
have ltk : k < size t by apply: leq_trans le_km; rewrite addnS ltnS leq_addr.
rewrite {1}/column_body getitem_nat ltk /= getitem_nat sT ltk /=.
rewrite setitem_nat sT ltk /= IH ?addSnnS //.
  by rewrite size_set_nth sT; apply/maxn_idPr.
congr Ok; apply: eq_mkseq => j.
rewrite (@set_nth_fill _ [::]) ?sT // nth_set_nth /=.
case: (eqVneq j k) => [->|njk]; first by rewrite ltnn leqnn /= addnS ltnS leq_addr.
by rewrite [k < j]ltn_neqAle eq_sym njk.
Qed.

Lemma insert_columnE (t : str) (T : seq str) :
  size T = size t -> insert_column t T = Ok (prepend t T).
Proof.
move=> sT; rewrite /insert_column /range insert_column_loop //.
congr Ok; apply: (@eq_from_nth _ [::]).
  by rewrite size_mkseq size_map size_zip sT minnn.
rewrite size_mkseq => j ltj; rewrite nth_mkseq // add0n ltj /=.
by rewrite (nth_map (0, [::])) ?size_zip ?sT ?minnn // nth_zip.
Qed.

Lemma size_prepend (t : str) (T : seq str) :
  size T = size t -> size (prepend t T) = size t.
Proof. by move=> sT; rewrite size_map size_zip sT minnn. Qed.

Lemma prepend_map (A : Type) (f : A -> sym) (g : A -> str) (l : seq A) :
  prepend [seq f r | r <- l] [seq g r | r <- l] = [seq f r :: g r | r <- l].
Proof. by elim: l => [|r l IH] //=; rewrite -IH. Qed.

Lemma size_round (t : str) (T : seq str) :
  size T = size t -> size (round t T) = size t.
Proof. by move=> sT; rewrite size_sorted_py size_prepend. Qed.

Lemma size_table_after (t : str) (k : nat) : size (table_after t k) = size t.
Proof.
by elim: k => [|k IH]; rewrite ?size_nseq // /table_after iterS size_round.
Qed.

Lemma outer_loop (t : str) (js : seq nat) (T : seq str) :
  size T = size t ->
  for_each js (outer_body t) T = Ok (iter (size js) (round t) T).
Proof.
elim: js T => [|j js IH] T sT //=.
by rewrite /outer_body insert_columnE //= IH ?size_round // -iterSr.
Qed.

Lemma final_tableE (t : str) : final_table t = Ok (table_after t (size t)).
Proof. by rewrite /final_table outer_loop ?size_nseq // /range size_iota. Qed.

Lemma bwt_inverseE (t : str) (i : Z) :
  bwt_inverse t i = getitem [::] (table_after t (size t)) i.
Proof. by rewrite /bwt_inverse final_tableE. Qed.

(* --------------------------------------------------------------------- *)
(* The inverse rebuilds the sorted table column by column                 *)
(* --------------------------------------------------------------------- *)

Lemma perm_rotr_sorted_rotations (s : str) :
  perm_eq [seq rotr 1 r | r <- sorted_rotations s] (sorted_rotations s).
Proof.
have pM : perm_eq (sorted_rotations s) (rotations s) by exact: sorted_py_perm.
apply: (perm_trans (perm_map _ pM)).
by apply: (perm_trans (perm_rotr_rotations s)); rewrite perm_sym.
Qed.

(* after k passes the table holds the first k columns of the sorted table *)
Lemma table_after_take (s : str) (k : nat) :
  k <= size s ->
  table_after (last_column s) k = [seq take k r | r <- sorted_rotations s].
Proof.
elim: k => [_|k IH ltk].
  rewrite /table_after /= /last_column size_map.
  by elim: (sorted_rotations s) => [|r l IHl] //=; rewrite take0 IHl.
rewrite /table_after iterS -/(table_after _ k) IH 1?ltnW // /round.
rewrite /last_column prepend_map.
have -> : [seq last 0 r :: take k r | r <- sorted_rotations s] =
          [seq take k.+1 r | r <- [seq rotr 1 r | r <- sorted_rotations s]].
  rewrite -map_comp; apply/eq_in_map => r /size_sorted_rotation sr.
  by rewrite /= rotr1_take ?sr.
rewrite (sorted_py_eq (perm_map _ (perm_rotr_sorted_rotations s))).
by rewrite sorted_py_id // sorted_take // sorted_py_sorted.
Qed.

Lemma final_table_last_column (s : str) :
  table_after (last_column s) (size (last_column s)) = sorted_rotations s.
Proof.
rewrite {2}/last_column size_map size_sorted_rotations table_after_take //.
rewrite -[RHS]map_id; apply/eq_in_map => r /size_sorted_rotation sr.
by rewrite take_oversize ?sr.
Qed.

Lemma bwt_inverse_sorted_rotations (s : str) :
  0 < size s ->
  bwt_inverse (last_column s) (Z.of_nat (index s (sorted_rotations s))) = Ok s.
Proof.
move=> s0; rewrite bwt_inverseE final_table_last_column getitem_nat.
by rewrite index_mem mem_sorted_rotations // nth_index ?mem_sorted_rotations.
Qed.

(* the round trip holds for every input, whatever it contains *)
Lemma roundtrip_any_input (x : str) :
  (res <- bwt_transform x ;; bwt_inverse res.1 res.2) = Ok (effective x).
Proof.
by rewrite bwt_transformE /= bwt_inverse_sorted_rotations ?size_effective.
Qed.

(* --------------------------------------------------------------------- *)
(* The reference definition agrees with the code                          *)
(* --------------------------------------------------------------------- *)

Lemma spec_rotationE (i : nat) (s : str) :
  i <= size s -> spec_rotation i s = drop i s ++ take i s.
Proof.
move=> lei; apply: (@eq_from_nth _ 0).
  by rewrite size_mkseq size_cat size_drop size_takel // subnK.
rewrite size_mkseq => k ltk; rewrite nth_mkseq // nth_cat size_drop.
case: ltnP => h; first by rewrite nth_drop modn_small // -ltn_subRL.
have [j ej ltj] : exists2 j, k = size s - i + j & j < i.
  exists (k - (size s - i)); first by rewrite subnKC.
  by rewrite ltn_subLR // subnK.
rewrite ej addKn nth_take // addnA subnKC // modnDl modn_small //.
exact: leq_trans ltj lei.
Qed.

Lemma spec_rotations (s : str) :
  [seq spec_rotation i s | i <- iota 0 (size s)] = rotations s.
Proof.
apply/eq_in_map => i; rewrite mem_iota add0n /= => lti.
by rewrite spec_rotationE // ltnW.
Qed.

Lemma spec_sorted_rotation_tableP (s : str) (m : seq str) :
  reflect (m = sorted_rotations s) (spec_sorted_rotation_table s m).
Proof.
rewrite /spec_sorted_rotation_table spec_rotations.
apply: (iffP andP) => [[pm sm]|->]; first exact: sorted_py_unique.
by rewrite sorted_py_perm sorted_py_sorted.
Qed.

(* --------------------------------------------------------------------- *)
(* One marker makes the rotations pairwise different                      *)
(* --------------------------------------------------------------------- *)

Lemma mem_count1 (x : sym) (a b : str) :
  count_mem x (a ++ b) = 1 -> (x \in b) = (x \notin a).
Proof.
rewrite count_cat -!has_pred1 !has_count.
by case: (count_mem x a) => [|[|ka]]; case: (count_mem x b) => [|[|kb]].
Qed.

(* where the one occurrence of x goes when the two parts of a string swap *)
Lemma index_swap (x : sym) (a b : str) :
  count_mem x (a ++ b) = 1 ->
  index x (b ++ a) =
  if size a <= index x (a ++ b) then index x (a ++ b) - size a
  else size b + index x (a ++ b).
Proof.
move/mem_count1 => xb; rewrite !index_cat xb.
case xa: (x \in a) => /=; first by rewrite leqNgt index_mem xa.
by rewrite leq_addr addKn.
Qed.

Lemma index_rot1 (x : sym) (s : str) (i : nat) :
  count_mem x s = 1 -> i <= size s ->
  index x (rot i s) =
  if i <= index x s then index x s - i else size s - i + index x s.
Proof.
move=> c1 lei; rewrite /rot index_swap cat_take_drop //.
by rewrite size_takel // size_drop.
Qed.

(* with one marker the rotations are pairwise different *)
Lemma uniq_rotations (x : sym) (s : str) :
  count_mem x s = 1 -> uniq (rotations s).
Proof.
move=> c1; rewrite rotationsE map_inj_in_uniq ?iota_uniq // => i j.
rewrite !mem_iota !add0n /= => lti ltj /(congr1 (index x)).
have ltp : index x s < size s by rewrite index_mem -has_pred1 has_count c1.
rewrite !index_rot1 ?(ltnW lti) ?(ltnW ltj) //.
by case: leqP => hi; case: leqP => hj e; nat_lia.
Qed.

Lemma count_effective (x : str) :
  count_mem dollar x <= 1 -> count_mem dollar (effective x) = 1.
Proof.
rewrite /effective; case: ifPn => [/count_memPn c0 _|/negbNE].
  by rewrite count_cat c0.
by rewrite -has_pred1 has_count => c1 c2; apply/eqP; rewrite eqn_leq c1 c2.
Qed.


(* ===================================================================== *)
(* The properties of the specification                                    *)
(* ===================================================================== *)

(** C1. Round trip: for a non-empty input x with at most one '$',
    bwt_transform returns a pair on which bwt_inverse returns effective x,
    which is x when x contains '$' and x followed by '$' otherwise. *)
Theorem bwt_roundtrip (x : str) :
  0 < size x -> count_mem dollar x <= 1 ->
  exists t idx,
    [/\ bwt_transform x = Ok (t, idx),
        bwt_inverse t idx = Ok (effective x)
      & effective x = if dollar \in x then x else x ++ [:: dollar]].
Proof.
move=> _ _; have := roundtrip_any_input x; rewrite bwt_transformE /= => inv.
exists (last_column (effective x)).
exists (Z.of_nat (index (effective x) (sorted_rotations (effective x)))).
by split=> //; rewrite /effective; case: (dollar \in x).
Qed.

Lemma bwt_roundtrip_witness :
  [/\ 0 < size (lit "BANANA"), count_mem dollar (lit "BANANA") <= 1
    & exists t idx,
        [/\ bwt_transform (lit "BANANA") = Ok (t, idx),
            bwt_inverse t idx = Ok (effective (lit "BANANA"))
          & effective (lit "BANANA") = lit "BANANA$"]].
Proof.
split; [by [] | by [] | exact: (@bwt_roundtrip (lit "BANANA") isT isT)].
Defined.

(** C2. Reference definition of the forward transform: for a non-empty
    input x with at most one '$', s = effective x and n = size s, there is
    exactly one lexicographically sorted list m of the n cyclic rotations of
    s, and bwt_transform x returns (t, idx) where t has n symbols, t[k] is
    the last symbol of row k of m for every k < n, and idx is the one
    position of s in m. *)
Theorem bwt_transform_reference (x : str) :
  0 < size x -> count_mem dollar x <= 1 ->
  let s := effective x in
  let n := size s in
  exists m t idx,
    [/\ spec_sorted_rotation_table s m /\
        (forall m', spec_sorted_rotation_table s m' -> m' = m),
        bwt_transform x = Ok (t, Z.of_nat idx),
        size t = n /\
        (forall k, k < n -> getitem 0 (nth [::] m k) (-1) = Ok (nth 0 t k)),
        idx < n
      & forall j, j < n -> (nth [::] m j == s) = (j == idx)].
Proof.
move=> _ c1 s n; exists (sorted_rotations s), (last_column s).
exists (index s (sorted_rotations s)).
have s0 : 0 < size s by exact: size_effective.
have sM : size (sorted_rotations s) = n by exact: size_sorted_rotations.
have ltidx : index s (sorted_rotations s) < n.
  by rewrite -sM index_mem mem_sorted_rotations.
split=> //.
- split; first exact/spec_sorted_rotation_tableP.
  by move=> m' /spec_sorted_rotation_tableP.
- exact: bwt_transformE.
- split=> [|k ltk]; first by rewrite /last_column size_map.
  rewrite getitem_last (nth_map [::]) ?sM //.
  have /size_sorted_rotation : nth [::] (sorted_rotations s) k \in sorted_rotations s.
    by rewrite mem_nth ?sM.
  by case: (nth _ _ k) => [|c r] //= e; move: s0; rewrite -e.
- move=> j ltj; rewrite -[X in _ == X](nth_index [::] (mem_sorted_rotations s0)).
  rewrite nth_uniq ?sM // (perm_uniq (sorted_py_perm _)).
  exact: (uniq_rotations (count_effective c1)).
Qed.

Lemma bwt_transform_reference_witness :
  [/\ 0 < size (lit "BANANA"), count_mem dollar (lit "BANANA") <= 1
    & exists m t idx,
       [/\ spec_sorted_rotation_table (effective (lit "BANANA")) m /\
           (forall m', spec_sorted_rotation_table (effective (lit "BANANA")) m' ->
                       m' = m),
           bwt_transform (lit "BANANA") = Ok (t, Z.of_nat idx),
           size t = size (effective (lit "BANANA")) /\
           (forall k, k < size (effective (lit "BANANA")) ->
                      getitem 0 (nth [::] m k) (-1) = Ok (nth 0 t k)),
           idx < size (effective (lit "BANANA"))
         & forall j, j < size (effective (lit "BANANA")) ->
                     (nth [::] m j == effective (lit "BANANA")) = (j == idx)]].
Proof.
split; [by [] | by [] | exact: (@bwt_transform_reference (lit "BANANA") isT isT)].
Defined.

(** C3. Permutation law: for every input x, bwt_transform x returns a
    transformed string with the same multiset of symbols as effective x:
    every symbol occurs in both the same number of times. *)
Theorem bwt_transform_perm (x : str) :
  exists t idx,
    [/\ bwt_transform x = Ok (t, idx), perm_eq t (effective x)
      & forall c : sym, count_mem c t = count_mem c (effective x)].
Proof.
exists (last_column (effective x)).
exists (Z.of_nat (index (effective x) (sorted_rotations (effective x)))).
have pt : perm_eq (last_column (effective x)) (effective x).
  apply: perm_trans (perm_last_rotations _).
  exact/perm_map/sorted_py_perm.
by split=> // [|c]; [exact: bwt_transformE | exact: (permP pt)].
Qed.

(** C4. Index bounds: for every input x, with n the length of effective x,
    the index returned by bwt_transform x satisfies 0 <= index < n. *)
Theorem bwt_transform_index_bounds (x : str) :
  exists t idx,
    bwt_transform x = Ok (t, idx) /\ (0 <= idx < len (effective x))%Z.
Proof.
exists (last_column (effective x)).
exists (Z.of_nat (index (effective x) (sorted_rotations (effective x)))).
split; first exact: bwt_transformE.
have := mem_sorted_rotations (size_effective x).
rewrite -index_mem size_sorted_rotations /len => /ltP; lia.
Qed.

(** C5. Worked example: bwt_transform("BANANA$") returns ("ANNB$AA", 4)
    and bwt_inverse("ANNB$AA", 4) returns "BANANA$". *)
Theorem banana_example :
  bwt_transform (lit "BANANA$") = Ok (lit "ANNB$AA", 4%Z) /\
  bwt_inverse (lit "ANNB$AA") 4 = Ok (lit "BANANA$").
Proof. by split; vm_compute. Qed.

(** C6, as stated, fails: bwt_transform applied to the empty sequence
    raises no error. *)
Lemma empty_input_not_rejected :
  ~ exists e : exn, bwt_transform [::] = Raise e.
Proof. by case. Qed.

(** C6, amended. bwt_transform applied to the empty sequence does not fail:
    the marker is appended, so that the sequence transformed is "$", and a
    pair is returned. *)
Theorem empty_input_accepted :
  [/\ effective [::] = lit "$",
      bwt_transform [::] = bwt_transform (lit "$")
    & exists r, bwt_transform [::] = Ok r].
Proof. by split=> //; exists (lit "$", 0%Z). Qed.

(** C7, as stated, fails: "A$B$" contains '$' twice and bwt_transform
    returns a pair for it. *)
Lemma multiple_sentinels_not_rejected :
  1 < count_mem dollar (lit "A$B$") /\
  bwt_transform (lit "A$B$") = Ok (lit "BA$$", 2%Z).
Proof. by split; vm_compute. Qed.

(** C7, amended. For every input containing '$' more than once,
    bwt_transform raises no error and makes no check: it works on the input
    unchanged and returns the last column of its sorted rotations together
    with the first position of the input among them. *)
Theorem multiple_sentinels_accepted (x : str) :
  1 < count_mem dollar x ->
  effective x = x /\
  bwt_transform x =
  Ok (last_column x, Z.of_nat (index x (sorted_rotations x))).
Proof.
move=> c2; have ex : effective x = x.
  by rewrite /effective -has_pred1 has_count (ltnW c2).
by split=> //; rewrite -{2 3 4}ex; exact: bwt_transformE.
Qed.

Lemma multiple_sentinels_accepted_witness :
  1 < count_mem dollar (lit "A$B$") /\
  (effective (lit "A$B$") = lit "A$B$" /\
   bwt_transform (lit "A$B$") =
   Ok (last_column (lit "A$B$"),
       Z.of_nat (index (lit "A$B$") (sorted_rotations (lit "A$B$"))))).
Proof. split; [by [] | exact: (@multiple_sentinels_accepted (lit "A$B$") isT)]. Defined.

(** C8, as stated, fails: -3 is not in [0, 7) and bwt_inverse("ANNB$AA", -3)
    returns a sequence. *)
Lemma negative_index_not_rejected :
  ~ (0 <= -3 < len (lit "ANNB$AA"))%Z /\
  bwt_inverse (lit "ANNB$AA") (-3) = Ok (lit "BANANA$").
Proof. by split; [case | vm_compute]. Qed.

(** C8, amended. For every transformed string of length n and every integer
    index with index >= n or index < -n, bwt_inverse raises IndexError
    rather than returning a sequence; in particular
    bwt_inverse("ANNB$AA", 7) raises IndexError. *)
Theorem bwt_inverse_index_error (t : str) (i : Z) :
  (i < - len t \/ len t <= i)%Z -> bwt_inverse t i = Raise IndexError.
Proof.
move=> hi; rewrite bwt_inverseE getitem_out //.
by rewrite /len size_table_after.
Qed.

Lemma bwt_inverse_index_error_witness :
  (7 < - len (lit "ANNB$AA") \/ len (lit "ANNB$AA") <= 7)%Z /\
  bwt_inverse (lit "ANNB$AA") 7 = Raise IndexError.
Proof.
have h : (7 < - len (lit "ANNB$AA") \/ len (lit "ANNB$AA") <= 7)%Z.
  by right; vm_compute.
exact: (conj h (bwt_inverse_index_error h)).
Defined.

(** C9. bwt_transform applied to the empty string returns ("$", 0): the
    marker is appended, and the one rotation "$" is the whole sorted table,
    so it gives the last column and is the original row. *)
Theorem empty_input_transform :
  [/\ bwt_transform [::] = Ok (lit "$", 0%Z),
      effective [::] = lit "$",
      sorted_rotations (lit "$") = [:: lit "$"]
    & last_column (lit "$") = lit "$" /\
      index (lit "$") (sorted_rotations (lit "$")) = 0].
Proof. by []. Qed.

(** C10. For every transformed string of length n >= 1 and every integer
    index with -n <= index < 0, bwt_inverse raises no error: its loops end
    with a table of n rows and it returns the row at position n + index of
    that table, which is what it returns for the index n + index. *)
Theorem bwt_inverse_negative_index (t : str) (i : Z) :
  0 < size t -> (- len t <= i < 0)%Z ->
  exists table,
    [/\ final_table t = Ok table, size table = size t,
        bwt_inverse t i = Ok (nth [::] table (Z.to_nat (len t + i)))
      & bwt_inverse t i = bwt_inverse t (len t + i)].
Proof.
move=> _ hi; exists (table_after t (size t)).
have sT : len (table_after t (size t)) = len t by rewrite /len size_table_after.
split; [exact: final_tableE | exact: size_table_after | |].
  by rewrite bwt_inverseE getitem_neg sT.
rewrite !bwt_inverseE getitem_neg ?sT // /getitem /norm_index /in_range sT.
by z_tests.
Qed.

Lemma bwt_inverse_negative_index_witness :
  [/\ 0 < size (lit "ANNB$AA"), (- len (lit "ANNB$AA") <= -3 < 0)%Z
    & exists table,
        [/\ final_table (lit "ANNB$AA") = Ok table,
            size table = size (lit "ANNB$AA"),
            bwt_inverse (lit "ANNB$AA") (-3) =
            Ok (nth [::] table (Z.to_nat (len (lit "ANNB$AA") + -3)))
          & bwt_inverse (lit "ANNB$AA") (-3) =
            bwt_inverse (lit "ANNB$AA") (len (lit "ANNB$AA") + -3)]].
Proof.
have h : (- len (lit "ANNB$AA") <= -3 < 0)%Z by split; vm_compute.
split; [by [] | exact: h | exact: (@bwt_inverse_negative_index (lit "ANNB$AA") (-3) isT h)].
Defined.

(* --------------------------------------------------------------------- *)
(* Further lemmas                                                         *)
(* --------------------------------------------------------------------- *)

Lemma size_effectiveE (x : str) : size (effective x) = size x + (dollar \notin x).
Proof.
by rewrite /effective; case: ifP => _; rewrite ?size_cat //= addn0.
Qed.

Lemma effective_id (x : str) : dollar \in x -> effective x = x.
Proof. by rewrite /effective => ->. Qed.

Lemma effective_idem (x : str) : effective (effective x) = effective x.
Proof. exact/effective_id/mem_effective. Qed.

Lemma size_last_column (s : str) : size (last_column s) = size s.
Proof. by rewrite /last_column size_map size_sorted_rotations. Qed.

Lemma index_sorted_rotations (s : str) :
  0 < size s -> index s (sorted_rotations s) < size s.
Proof.
by move=> s0; rewrite -[X in _ < X]size_sorted_rotations index_mem mem_sorted_rotations.
Qed.

(* every row of the table after k passes has k symbols *)
Lemma size_prepend_rows (k : nat) (t : str) (T : seq str) :
  all (fun r => size r == k) T -> all (fun r => size r == k.+1) (prepend t T).
Proof.
rewrite /prepend; elim: t T => [|c t IH] [|r T] //= /andP [sr /IH ->].
by rewrite eqSS sr.
Qed.

Lemma size_table_after_rows (t : str) (k : nat) :
  all (fun r => size r == k) (table_after t k).
Proof.
elim: k => [|k IH]; first by rewrite /table_after /= all_nseq orbT.
by rewrite /table_after iterS /round /sorted_py all_sort size_prepend_rows.
Qed.

(* every pass leaves the table sorted, with the symbols of t, in ascending
   order, as its first column *)
Lemma str_le_head (a b : str) : str_le a b -> head 0 a <= head 0 b.
Proof.
case: a b => [|x a] [|y b] //=.
by case/orP=> [/ltnW //|/andP [/eqP -> _]].
Qed.

Lemma head_prepend (t : str) (T : seq str) :
  size T = size t -> [seq head 0 r | r <- prepend t T] = t.
Proof.
move=> sT; rewrite /prepend -map_comp.
by rewrite -[RHS](@unzip1_zip _ _ t T) ?sT.
Qed.

Lemma head_table_after (t : str) (k : nat) :
  [seq head 0 r | r <- table_after t k.+1] = sort leq t.
Proof.
rewrite /table_after iterS -/(table_after t k) /round.
set P := prepend t _.
have hP : [seq head 0 r | r <- P] = t by rewrite head_prepend ?size_table_after.
have s1 : sorted leq [seq head 0 r | r <- sorted_py P].
  rewrite sorted_map; apply: sub_sorted (sorted_py_sorted P) => a b.
  exact: str_le_head.
have p1 : perm_eq [seq head 0 r | r <- sorted_py P] (sort leq t).
  rewrite perm_sym perm_sort perm_sym -[X in perm_eq _ X]hP.
  exact/perm_map/sorted_py_perm.
exact: (sorted_eq leq_trans anti_leq s1 (sort_sorted leq_total t) p1).
Qed.

(* the rotations of a rotation are the rotations, in another order *)
Lemma rotations_rot (i : nat) (s : str) :
  rotations (rot i s) = [seq rot i r | r <- rotations s].
Proof.
rewrite !rotationsE size_rot -map_comp; apply: eq_map => j /=.
exact: rot_rot.
Qed.

Lemma perm_rot_rotations (i : nat) (s : str) :
  perm_eq [seq rot i r | r <- rotations s] (rotations s).
Proof.
case: (leqP i (size s)) => [|/ltnW lti]; last first.
  have -> // : [seq rot i r | r <- rotations s] = rotations s.
  rewrite -[RHS]map_id; apply/eq_in_map => r /size_rotation sr.
  by rewrite rot_oversize ?sr.
elim: i => [_|i IH lti].
  have -> // : [seq rot 0 r | r <- rotations s] = rotations s.
  by rewrite -[RHS]map_id; apply/eq_in_map => r _; rewrite rot0.
have -> : [seq rot i.+1 r | r <- rotations s] =
          [seq rot 1 r | r <- [seq rot i r | r <- rotations s]].
  rewrite -map_comp; apply/eq_in_map => r /size_rotation sr /=.
  by rewrite rotS ?sr.
apply: (perm_trans (perm_map _ (IH (ltnW lti)))).
by rewrite rot_rotations perm_rot.
Qed.

Lemma sorted_rotations_rot (i : nat) (s : str) :
  sorted_rotations (rot i s) = sorted_rotations s.
Proof.
by rewrite /sorted_rotations rotations_rot (sorted_py_eq (perm_rot_rotations i s)).
Qed.

(* the first row of a sorted list is below every row *)
Lemma sorted_head_min (m : seq str) (r : str) :
  sorted str_le m -> r \in m -> str_le (head [::] m) r.
Proof.
case: m => [|m0 m] //= /(order_path_min str_le_trans) /allP mn.
by rewrite in_cons => /orP [/eqP ->|/mn //]; exact: str_le_refl.
Qed.

(* with one marker, below all other symbols, the first row of the sorted
   table is the rotation that starts at the marker *)
Lemma head_sorted_rotations (a b : str) :
  all (fun c => dollar < c) a -> all (fun c => dollar < c) b ->
  head [::] (sorted_rotations (a ++ dollar :: b)) = dollar :: b ++ a.
Proof.
move=> /allP ga /allP gb; set s := a ++ dollar :: b.
have r0 : dollar :: b ++ a = rot (size a) s by rewrite /s rot_size_cat.
have s0 : 0 < size s by rewrite size_cat /= addnS.
have r0M : dollar :: b ++ a \in sorted_rotations s.
  rewrite mem_sorted_py rotationsE r0; apply/mapP; exists (size a) => //.
  by rewrite mem_iota /= add0n size_cat /= addnS ltnS leq_addr.
have ge j : j < size s ->
    dollar <= nth 0 s j /\ (nth 0 s j = dollar -> j = size a).
  rewrite size_cat /= addnS /s nth_cat => ltj.
  case: (ltnP j (size a)) => [ja|].
    have gt := ga _ (mem_nth 0 ja); split; first exact: ltnW.
    by move=> e; move: gt; rewrite e ltnn.
  rewrite leq_eqVlt => /orP [/eqP <- //|ja]; first by rewrite subnn.
  have jb : j - size a - 1 < size b by apply/ltP; nat_lia.
  have -> : j - size a = (j - size a - 1).+1 by nat_lia.
  have gt := gb _ (mem_nth 0 jb); split; first exact: ltnW.
  by move=> /= e; move: gt; rewrite e ltnn.
set m0 := head [::] (sorted_rotations s).
have le0 : str_le m0 (dollar :: b ++ a).
  exact: (sorted_head_min (sorted_py_sorted (rotations s)) r0M).
have : m0 \in sorted_rotations s.
  by rewrite /m0 -nth0 mem_nth // size_sorted_rotations.
rewrite mem_sorted_py rotationsE => /mapP [i].
rewrite mem_iota /= add0n => lti em0.
have [gei eqi] := ge i lti.
move: le0; rewrite em0 {1}/rot (drop_nth 0 lti) /=.
case/orP=> [lt|/andP [/eqP /eqi -> _]]; last by rewrite r0.
by move: gei; rewrite leqNgt lt.
Qed.

(* ===================================================================== *)
(* Further properties of the code                                         *)
(* ===================================================================== *)

(** X1. bwt_transform raises on no input: list.index always finds s and no
    rotation is empty.  The transformed string has the length of the input,
    plus one when the input has no '$'. *)
Theorem bwt_transform_never_raises (x : str) :
  exists t idx,
    bwt_transform x = Ok (t, idx) /\ size t = size x + (dollar \notin x).
Proof.
exists (last_column (effective x)).
exists (Z.of_nat (index (effective x) (sorted_rotations (effective x)))).
by rewrite bwt_transformE size_last_column size_effectiveE.
Qed.

(** X2. The round trip needs no condition on the input: for every string x,
    empty or not, with any number of '$' and with symbols below '$' or not,
    bwt_inverse applied to the pair returned by bwt_transform x returns
    effective x. *)
Theorem roundtrip_every_input (x : str) :
  exists t idx,
    bwt_transform x = Ok (t, idx) /\ bwt_inverse t idx = Ok (effective x).
Proof.
exists (last_column (effective x)).
exists (Z.of_nat (index (effective x) (sorted_rotations (effective x)))).
by rewrite bwt_transformE bwt_inverse_sorted_rotations ?size_effective.
Qed.

(** X3. The transform loses nothing: two inputs with the same result have
    the same effective string. *)
Theorem bwt_transform_lossless (x y : str) :
  bwt_transform x = bwt_transform y -> effective x = effective y.
Proof.
move=> e; have := roundtrip_any_input x; rewrite e => ix.
by have := roundtrip_any_input y; rewrite ix => -[].
Qed.

Lemma bwt_transform_lossless_witness :
  bwt_transform (lit "AB") = bwt_transform (lit "AB$") /\
  effective (lit "AB") = effective (lit "AB$").
Proof.
have e : bwt_transform (lit "AB") = bwt_transform (lit "AB$") by vm_compute.
exact: (conj e (bwt_transform_lossless e)).
Defined.

(** X4. Appending the marker oneself changes nothing: for an input x
    without '$', bwt_transform(x + '$') returns what bwt_transform(x)
    returns. *)
Theorem bwt_transform_marker_appended (x : str) :
  dollar \notin x -> bwt_transform (x ++ [:: dollar]) = bwt_transform x.
Proof.
move=> nx; rewrite !bwt_transformE /= [effective x]/effective nx.
by rewrite effective_id // mem_cat mem_seq1 eqxx orbT.
Qed.

Lemma bwt_transform_marker_appended_witness :
  dollar \notin lit "BANANA" /\
  bwt_transform (lit "BANANA" ++ [:: dollar]) = bwt_transform (lit "BANANA").
Proof.
split; [by [] | exact: (@bwt_transform_marker_appended (lit "BANANA") isT)].
Defined.

(** X5. The symbol of the transformed string at the returned index is the
    last symbol of the string transformed: the last symbol of x when x
    contains '$', and '$' itself when the marker was appended. *)
Theorem transformed_at_index (x : str) :
  exists t idx,
    [/\ bwt_transform x = Ok (t, idx),
        getitem 0 t idx = getitem 0 (effective x) (-1)
      & getitem 0 t idx = Ok (if dollar \in x then last 0 x else dollar)].
Proof.
set s := effective x.
exists (last_column s), (Z.of_nat (index s (sorted_rotations s))).
have s0 : 0 < size s by exact: size_effective.
have lti := index_sorted_rotations s0.
have e : getitem 0 (last_column s) (Z.of_nat (index s (sorted_rotations s))) =
         Ok (last 0 s).
  rewrite getitem_nat size_last_column lti /last_column.
  by rewrite (nth_map [::]) ?size_sorted_rotations // nth_index ?mem_sorted_rotations.
split; first exact: bwt_transformE.
  by rewrite e getitem_last; case: (s) s0.
rewrite e /s /effective; case: (dollar \in x) => //=.
by rewrite last_cat.
Qed.

(** X6. bwt_inverse returns a string exactly when the index lies in
    [-n, n), n being the length of the transformed string, whatever that
    string is; in particular it returns nothing for the empty string. *)
Theorem bwt_inverse_ok_iff (t : str) (i : Z) :
  (exists r, bwt_inverse t i = Ok r) <-> (- len t <= i < len t)%Z.
Proof.
have sT : len (table_after t (size t)) = len t by rewrite /len size_table_after.
rewrite bwt_inverseE; split=> [[r]|hi].
  case: (Z.lt_ge_cases i (- len t)) => [lo|lo].
    by rewrite getitem_out ?sT //; left.
  case: (Z.lt_ge_cases i (len t)) => [//|hi].
  by rewrite getitem_out ?sT //; right.
rewrite /getitem /norm_index /in_range sT.
by z_tests; eexists.
Qed.

(** X7. The string bwt_inverse returns has the length of the transformed
    string, for every transformed string and every index in [-n, n). *)
Theorem bwt_inverse_length (t : str) (i : Z) :
  (- len t <= i < len t)%Z ->
  exists2 r, bwt_inverse t i = Ok r & size r = size t.
Proof.
move=> hi; rewrite bwt_inverseE.
have sT : size (table_after t (size t)) = size t by exact: size_table_after.
have row k : k < size t -> size (nth [::] (table_after t (size t)) k) = size t.
  move=> ltk; apply/eqP.
  by apply: (allP (size_table_after_rows t (size t))); rewrite mem_nth ?sT.
have lT : len (table_after t (size t)) = len t by rewrite /len sT.
case: (Z.lt_ge_cases i 0) => [neg|pos].
  rewrite getitem_neg lT; first by lia.
  eexists; first by [].
  by apply: row; apply/ltP; rewrite /len in hi *; lia.
rewrite -(Z2Nat.id i) // getitem_nat sT.
have lti : Z.to_nat i < size t by apply/ltP; rewrite /len in hi; lia.
by rewrite lti; eexists; first by []; exact: row.
Qed.

Lemma bwt_inverse_length_witness :
  (- len (lit "ABBA") <= -1 < len (lit "ABBA"))%Z /\
  exists2 r, bwt_inverse (lit "ABBA") (-1) = Ok r & size r = size (lit "ABBA").
Proof.
have h : (- len (lit "ABBA") <= -1 < len (lit "ABBA"))%Z by split; vm_compute.
exact: (conj h (bwt_inverse_length h)).
Defined.

(** X8. With the transformed string of bwt_transform x and any row number
    k below its length, bwt_inverse returns row k of the sorted table,
    which is a rotation s[j:] + s[:j] of the string s transformed: a wrong
    index yields a rotation of the original. *)
Theorem bwt_inverse_any_row (x : str) (k : nat) :
  let s := effective x in
  k < size s ->
  exists t idx j,
    [/\ bwt_transform x = Ok (t, idx), j < size s,
        bwt_inverse t (Z.of_nat k) = Ok (nth [::] (sorted_rotations s) k)
      & nth [::] (sorted_rotations s) k = drop j s ++ take j s].
Proof.
move=> s ltk.
have : nth [::] (sorted_rotations s) k \in rotations s.
  by rewrite -mem_sorted_py mem_nth // size_sorted_rotations.
case/mapP=> j; rewrite mem_iota add0n /= => ltj ej.
exists (last_column s), (Z.of_nat (index s (sorted_rotations s))), j.
split=> //; first exact: bwt_transformE.
by rewrite bwt_inverseE final_table_last_column getitem_nat size_sorted_rotations ltk.
Qed.

Lemma bwt_inverse_any_row_witness :
  2 < size (effective (lit "BANANA")) /\
  exists t idx j,
    [/\ bwt_transform (lit "BANANA") = Ok (t, idx),
        j < size (effective (lit "BANANA")),
        bwt_inverse t (Z.of_nat 2) =
        Ok (nth [::] (sorted_rotations (effective (lit "BANANA"))) 2)
      & nth [::] (sorted_rotations (effective (lit "BANANA"))) 2 =
        drop j (effective (lit "BANANA")) ++ take j (effective (lit "BANANA"))].
Proof.
split; [by [] | exact: (@bwt_inverse_any_row (lit "BANANA") 2 isT)].
Defined.

(** X9. The transformed string does not depend on where the input starts:
    for a string s that contains '$' and any i, bwt_transform of the
    rotation s[i:] + s[:i] returns the transformed string of s (the index
    alone tells the rotations apart). *)
Theorem bwt_transform_rotation (s : str) (i : nat) :
  dollar \in s ->
  exists t idx idx',
    bwt_transform s = Ok (t, idx) /\
    bwt_transform (drop i s ++ take i s) = Ok (t, idx').
Proof.
move=> ds; exists (last_column s).
exists (Z.of_nat (index s (sorted_rotations s))).
exists (Z.of_nat (index (rot i s) (sorted_rotations s))).
rewrite -/(rot i s) !bwt_transformE /= !effective_id ?mem_rot //.
by rewrite /last_column sorted_rotations_rot.
Qed.

Lemma bwt_transform_rotation_witness :
  dollar \in lit "BANANA$" /\
  exists t idx idx',
    bwt_transform (lit "BANANA$") = Ok (t, idx) /\
    bwt_transform (drop 3 (lit "BANANA$") ++ take 3 (lit "BANANA$")) =
    Ok (t, idx').
Proof.
split; [by [] | exact: (@bwt_transform_rotation (lit "BANANA$") 3 isT)].
Defined.

(** X10. When the string s = a + '$' + b holds one '$' and every other
    symbol is above '$', the first row of the sorted table is the rotation
    that starts at the marker, so the transformed string starts with the
    symbol that precedes the marker cyclically, and the returned index is 0
    exactly when s starts with the marker. *)
Theorem marker_row_first (a b : str) :
  all (fun c => dollar < c) a -> all (fun c => dollar < c) b ->
  exists t idx,
    [/\ bwt_transform (a ++ dollar :: b) = Ok (t, idx),
        nth [::] (sorted_rotations (a ++ dollar :: b)) 0 = dollar :: b ++ a,
        getitem 0 t 0 = Ok (last dollar (b ++ a))
      & idx = 0%Z <-> a = [::]].
Proof.
move=> ga gb.
have e0 : (dollar :: b ++ a == a ++ dollar :: b) = (a == [::]).
  case: (a) ga => [|c a'] /=; first by rewrite cats0 !eqxx.
  by case/andP=> gc _; rewrite eqseq_cons (ltn_eqF gc).
set s := a ++ dollar :: b.
have ds : dollar \in s by rewrite mem_cat in_cons eqxx orbT.
have s0 : 0 < size s by rewrite /s size_cat /= addnS.
have hd : nth [::] (sorted_rotations s) 0 = dollar :: b ++ a.
  by rewrite nth0 head_sorted_rotations.
exists (last_column s), (Z.of_nat (index s (sorted_rotations s))).
split=> //.
- by rewrite bwt_transformE /= effective_id.
- rewrite (getitem_nat 0 _ 0) size_last_column s0 /last_column.
  by rewrite (nth_map [::]) ?size_sorted_rotations // hd.
- case: (sorted_rotations s) hd => [|r0 m] //= ->.
  by rewrite e0; case: eqP => [->|na]; split.
Qed.

Lemma marker_row_first_witness :
  [/\ all (fun c => dollar < c) (lit "BAN"), all (fun c => dollar < c) (lit "ANA")
    & exists t idx,
        [/\ bwt_transform (lit "BAN" ++ dollar :: lit "ANA") = Ok (t, idx),
            nth [::] (sorted_rotations (lit "BAN" ++ dollar :: lit "ANA")) 0 =
            dollar :: lit "ANA" ++ lit "BAN",
            getitem 0 t 0 = Ok (last dollar (lit "ANA" ++ lit "BAN"))
          & idx = 0%Z <-> lit "BAN" = [::]]].
Proof.
split; [by [] | by [] | exact: (@marker_row_first (lit "BAN") (lit "ANA") isT isT)].
Defined.

(** X11. For every transformed string, the strings bwt_inverse returns are
    in ascending order of the index: for 0 <= k1 <= k2 < n, the result for
    k1 is lexicographically at most the result for k2. *)
Theorem bwt_inverse_monotone (t : str) (k1 k2 : nat) :
  k1 <= k2 -> k2 < size t ->
  exists r1 r2,
    [/\ bwt_inverse t (Z.of_nat k1) = Ok r1,
        bwt_inverse t (Z.of_nat k2) = Ok r2 & str_le r1 r2].
Proof.
move=> le12 lt2; have lt1 := leq_ltn_trans le12 lt2.
rewrite !bwt_inverseE !getitem_nat size_table_after lt1 lt2.
do 2!eexists; split=> //.
have sT : sorted str_le (table_after t (size t)).
  case: (size t) lt2 => [|n] // _.
  by rewrite /table_after iterS /round sorted_py_sorted.
apply: (sorted_leq_nth str_le_trans str_le_refl [::] sT) => //.
  by rewrite inE size_table_after.
by rewrite inE size_table_after.
Qed.

Lemma bwt_inverse_monotone_witness :
  [/\ 1 <= 3, 3 < size (lit "ABBA")
    & exists r1 r2,
        [/\ bwt_inverse (lit "ABBA") (Z.of_nat 1) = Ok r1,
            bwt_inverse (lit "ABBA") (Z.of_nat 3) = Ok r2 & str_le r1 r2]].
Proof.
split; [by [] | by [] | exact: (@bwt_inverse_monotone (lit "ABBA") 1 3 isT isT)].
Defined.

(** X12. For every transformed string t and row number k below its length,
    the string bwt_inverse returns for k starts with sorted(t)[k], the k-th
    symbol of t in ascending order. *)
Theorem bwt_inverse_first_symbol (t : str) (k : nat) :
  k < size t ->
  exists2 r, bwt_inverse t (Z.of_nat k) = Ok r
           & getitem 0 r 0 = Ok (nth 0 (sort leq t) k).
Proof.
move=> ltk; rewrite bwt_inverseE getitem_nat size_table_after ltk.
eexists; first by [].
have sr : size (nth [::] (table_after t (size t)) k) = size t.
  apply/eqP; apply: (allP (size_table_after_rows t (size t))).
  by rewrite mem_nth ?size_table_after.
rewrite (getitem_nat 0 _ 0) sr (leq_ltn_trans (leq0n k) ltk) nth0.
have [n en] : exists n, size t = n.+1 by case: (size t) ltk => // n _; exists n.
rewrite -(head_table_after t n) -en (nth_map [::]) //.
by rewrite size_table_after.
Qed.

Lemma bwt_inverse_first_symbol_witness :
  2 < size (lit "ABBA") /\
  exists2 r, bwt_inverse (lit "ABBA") (Z.of_nat 2) = Ok r
           & getitem 0 r 0 = Ok (nth 0 (sort leq (lit "ABBA")) 2).
Proof.
split; [by [] | exact: (@bwt_inverse_first_symbol (lit "ABBA") 2 isT)].
Defined.

(** X13. main raises no exception and prints six texts, whatever was
    printed before: for each of its two inputs the input, the transformed
    string with its index in decimal, and the input again as recovered by
    bwt_inverse. *)
Theorem main_output (out : stdout) :
  main out =
  (out ++ [:: lit "Input: BANANA$";
              lit "BWT Transform: ANNB$AA (index: 4)";
              lit "BWT Inverse: BANANA$";
              newline :: lit "Input: MISSISSIPPI$";
              lit "BWT Transform: IPSSM$PISSII (index: 5)";
              lit "BWT Inverse: MISSISSIPPI$"],
   Ok tt).
Proof.
have e1 : bwt_transform (lit "BANANA$") = Ok (lit "ANNB$AA", 4%Z).
  by vm_compute.
have e2 : bwt_inverse (lit "ANNB$AA") 4 = Ok (lit "BANANA$") by vm_compute.
have e3 : bwt_transform (lit "MISSISSIPPI$") = Ok (lit "IPSSM$PISSII", 5%Z).
  by vm_compute.
have e4 : bwt_inverse (lit "IPSSM$PISSII") 5 = Ok (lit "MISSISSIPPI$").
  by vm_compute.
cbv beta iota zeta delta [main bind_io print call].
rewrite e1; cbv beta iota delta [fst snd].
rewrite e2; cbv beta iota.
rewrite e3; cbv beta iota delta [fst snd].
rewrite e4 -!cats1 -!catA.
by congr (_, _); congr (_ ++ _); vm_compute.
Qed.
